(** * OpenMS: MRMAssay, BaseLabeler and JavaInfo

    A shallow embedding of three OpenMS components and the properties their
    specification states about them:

    - [MRMAssay] (include/OpenMS/ANALYSIS/OPENSWATH/MRMAssay.h): the
      header declares the interface and the default arguments; the bodies of
      its protected helpers live in MRMAssay.cpp.  Every helper whose body
      is not at hand is modelled from the specification and is marked so.
    - [BaseLabeler] (SIMULATION/LABELING/BaseLabeler.h): the virtual hooks
      with their inline default bodies.
    - [JavaInfo] (source/SYSTEM/JavaInfo.cpp): [JavaInfo::canRun].

    Conventions.  A [double] holding an m/z value is an exact rational [Q];
    [size_t] is [nat]; [int] is [Z]; [String]/[std::string] is [string];
    [boost::unordered_map] is stdpp's [gmap] (its iteration order is
    [map_to_list]'s: fixed but unspecified), [std::set] is [gset]. *)

From Stdlib Require Import Arith ZArith QArith Qabs Lqa String Ascii List Permutation Sorted
  Factorial Lia.
From stdpp Require Import gmap strings list fin_maps sorting.

Local Open Scope Z_scope.

(** ** Swath windows and the UIS matcher *)

Module MRMAssay.

(** A precursor isolation window: (lower, upper) m/z bound. *)
Definition SwathWindow : Type := (Q * Q)%type.

(** Modelled from the spec: the test of [getSwath_] (MRMAssay.cpp, missing),
    "the window's bounds contain precursor_mz", read with both bounds
    included: [lower <= precursor_mz <= upper]. *)
Definition in_window (w : SwathWindow) (mz : Q) : bool :=
  Qle_bool (fst w) mz && Qle_bool mz (snd w).

(** The same as a proposition. *)
Definition contains (w : SwathWindow) (mz : Q) : Prop :=
  (fst w <= mz)%Q /\ (mz <= snd w)%Q.

(** Modelled from the spec: the body of [MRMAssay::getSwath_] (MRMAssay.cpp)
    is missing.  "Linear scan returning the index of the first window whose
    bounds contain precursor_mz, or a sentinel not-found value (-1) if none
    matches."  [getSwath_from i] is the loop with its running index. *)
Fixpoint getSwath_from (i : Z) (swathes : list SwathWindow) (precursor_mz : Q) : Z :=
  match swathes with
  | [] => -1
  | w :: rest =>
      if in_window w precursor_mz then i
      else getSwath_from (i + 1) rest precursor_mz
  end.

Definition getSwath_ (swathes : list SwathWindow) (precursor_mz : Q) : Z :=
  getSwath_from 0 swathes precursor_mz.

(** Modelled from the spec: the test of [getMatchingPeptidoforms_]
    (MRMAssay.cpp, missing), "within +- mz_threshold of fragment_ion
    (inclusive bounds)", written the way a scan tests it, as the two
    one-sided comparisons [d - t <= f] and [f <= d + t]. *)
Definition within_threshold (fragment_ion d mz_threshold : Q) : bool :=
  Qle_bool (d - mz_threshold) fragment_ion && Qle_bool fragment_ion (d + mz_threshold).

(** Modelled from the spec: the body of [MRMAssay::getMatchingPeptidoforms_]
    (MRMAssay.cpp) is missing.  "Scans the candidate ion list and returns
    the labels of every peptidoform whose stored m/z lies within
    +- mz_threshold of fragment_ion (inclusive bounds)." *)
Fixpoint getMatchingPeptidoforms_ (fragment_ion : Q) (ions : list (Q * string))
         (mz_threshold : Q) : list string :=
  match ions with
  | [] => []
  | (d, label) :: rest =>
      if within_threshold fragment_ion d mz_threshold
      then label :: getMatchingPeptidoforms_ fragment_ion rest mz_threshold
      else getMatchingPeptidoforms_ fragment_ion rest mz_threshold
  end.

(** ** Combination enumerator *)

(** The binomial coefficient, by Pascal's rule. *)
Fixpoint binom (n k : nat) : nat :=
  match n, k with
  | _, O => 1
  | O, S _ => 0
  | S n', S k' => binom n' k' + binom n' k
  end%nat.

(** The k-element subsets of a vector of indices, each in the order of the
    vector: a subset either takes the first index and k-1 of the rest, or k
    of the rest. *)
Fixpoint subsetsOf (n : list nat) (k : nat) {struct n} : list (list nat) :=
  match k, n with
  | O, _ => [[]]
  | S _, [] => []
  | S k', i :: rest => map (cons i) (subsetsOf rest k') ++ subsetsOf rest k
  end.

(** Modelled from the spec: the body of [MRMAssay::nchoosekcombinations_]
    (MRMAssay.cpp) is missing.  "Enumerates every k-element subset of the
    given index set; order among subsets does not matter but each subset's
    internal order is ascending; k = 0 yields one empty subset; k > n
    yields an empty result set."  The indices are put in ascending order,
    so that every subset comes out ascending whatever the order of the
    vector, and the k-element subsets are enumerated from there. *)
Definition nchoosekcombinations_ (n : list nat) (k : nat) : list (list nat) :=
  subsetsOf (merge_sort le n) k.

(** What the enumeration promises of its result [r]: C(|n|, k) subsets, no
    two the same, each of size [k], drawn from the indices of [n], and
    ascending. *)
Definition enumeratesSubsets (n : list nat) (k : nat) (r : list (list nat)) : Prop :=
  length r = binom (length n) k /\
  NoDup r /\
  Forall (fun c => length c = k /\ c ⊆+ n /\ StronglySorted le c) r.

(** ** Modification placement *)

(** An [AASequence]: the stripped residue string and the modification
    carried by each modified position (0-based). *)
Record AASequence : Type := mkAASequence {
  residues : string;
  modifications : gmap nat string
}.

Definition toUnmodified (s : AASequence) : AASequence :=
  mkAASequence (residues s) ∅.

Definition setModification (pos : nat) (modification : string) (s : AASequence) : AASequence :=
  mkAASequence (residues s) (<[pos := modification]> (modifications s)).

(** The modification names found on a sequence, one per modified position. *)
Definition modificationNames (s : AASequence) : list string :=
  map snd (map_to_list (modifications s)).

(** Every distinct modification on the sequence with its number of
    occurrences. *)
Definition observedModifications (s : AASequence) : list (string * nat) :=
  map (fun m => (m, count_occ string_dec (modificationNames s) m))
      (remove_dups (modificationNames s)).

(** Modelled from the spec: the body of
    [MRMAssay::addModificationsSequences_] (MRMAssay.cpp) is missing.  "For
    every input sequence and every combination of positions, returns a new
    peptide variant with the named modification applied at exactly those
    positions." *)
Definition addModificationsSequences_ (sequences : list AASequence)
           (mods_combs : list (list nat)) (modification : string) : list AASequence :=
  flat_map (fun s =>
    map (fun comb => fold_right (fun pos acc => setModification pos modification acc) s comb)
        mods_combs) sequences.

(** Why a placement pass can fail. *)
Inductive PlacementError : Type :=
| InsufficientSites (modification : string) (required available : nat).

Section Placement.

(** The modification validity oracle (ModificationsDB): for a stripped
    sequence and a modification name, the ordered positions able to
    carry it. *)
Variable modifiableSites : string -> string -> list nat.

(** Modelled from the spec: the body of [MRMAssay::combineModifications_]
    (MRMAssay.cpp) is missing.  For each modification type on the
    sequence, all k-out-of-n placements over the sites able to carry it
    (k = observed count), folded together with
    [addModificationsSequences_]. *)
Definition combineModifications_ (sequence : AASequence) : list AASequence :=
  fold_left (fun sequences mk =>
               addModificationsSequences_ sequences
                 (nchoosekcombinations_ (modifiableSites (residues sequence) (fst mk)) (snd mk))
                 (fst mk))
            (observedModifications sequence) [toUnmodified sequence].

(** Modelled from the spec: the loop of [combineDecoyModifications_]
    (MRMAssay.cpp, missing) over the observed modification types,
    [sequences] being the variants built so far; it "must fail explicitly
    (not silently truncate) when the decoy lacks enough modifiable sites to
    host the required count". *)
Fixpoint placeOnDecoy (target decoy : string) (observed : list (string * nat))
         (sequences : list AASequence) : PlacementError + list AASequence :=
  match observed with
  | [] => inr sequences
  | (modification, k) :: rest =>
      let available := length (modifiableSites decoy modification) in
      if (available <? k)%nat
      then inl (InsufficientSites modification k available)
      else placeOnDecoy target decoy rest
             (addModificationsSequences_ sequences
                (nchoosekcombinations_ (modifiableSites target modification) k)
                modification)
  end.

(** Modelled from the spec: the body of
    [MRMAssay::combineDecoyModifications_] (MRMAssay.cpp) is missing.
    "Mirrors [combineModifications_] but transfers each
    position-combination computed on the target's modifiable-site set
    onto the decoy; must fail explicitly (not silently truncate) when
    the decoy lacks enough modifiable sites to host the required count."
    The position-combinations are placed on the decoy at the positions
    they have on the target, as in the header's example (target
    SAS(Phospho)K, decoy SSSK). *)
Definition combineDecoyModifications_ (sequence decoy_sequence : AASequence)
  : PlacementError + list AASequence :=
  placeOnDecoy (residues sequence) (residues decoy_sequence)
               (observedModifications sequence) [toUnmodified decoy_sequence].

(** Modelled from the spec: the peptide loop around
    [combineDecoyModifications_] (in MRMAssay.cpp) is missing.
    "Insufficient-sites error: fatal for that peptide only; the peptide
    is skipped and reported, processing continues for others."  Returns
    the decoy peptidoforms of the peptides that went through and the
    report of those that were skipped. *)
Fixpoint decoyPeptidoforms (peptides : list (string * (AASequence * AASequence)))
  : list (string * list AASequence) * list (string * PlacementError) :=
  match peptides with
  | [] => ([], [])
  | (id, (sequence, decoy_sequence)) :: rest =>
      let '(done, skipped) := decoyPeptidoforms rest in
      match combineDecoyModifications_ sequence decoy_sequence with
      | inr forms => ((id, forms) :: done, skipped)
      | inl e => (done, (id, e) :: skipped)
      end
  end.

End Placement.

(** A validity oracle for the examples: Phospho goes on S, T and Y,
    Oxidation on M. *)
Fixpoint positionsOf (accepts : ascii -> bool) (i : nat) (s : string) : list nat :=
  match s with
  | EmptyString => []
  | String c s' =>
      if accepts c then i :: positionsOf accepts (S i) s' else positionsOf accepts (S i) s'
  end.

Definition exampleSites (stripped modification : string) : list nat :=
  if String.eqb modification "Phospho"
  then positionsOf (fun c => Ascii.eqb c "S" || Ascii.eqb c "T" || Ascii.eqb c "Y")%char 0 stripped
  else if String.eqb modification "Oxidation"
  then positionsOf (fun c => Ascii.eqb c "M")%char 0 stripped
  else [].

(** ** Decoy sequence generator *)

(** The pseudorandom source ([boost::mt19937] behind a
    [boost::variate_generator]): a state built from an integer seed and a
    step that yields one draw.  The library is not part of the repository,
    so the generator is a parameter. *)
Record PRNG : Type := mkPRNG {
  rng_state : Type;
  rng_seed : Z -> rng_state;
  rng_next : rng_state -> nat * rng_state
}.

Section Decoys.

Variable g : PRNG.

(** The generator in use: its state and the draws made so far. *)
Definition Rng : Type := (rng_state g * list nat)%type.

Definition seeded (seed : Z) : Rng := (rng_seed g seed, []).

(** Modelled from the spec: "seedable generator producing uniform integers
    in a bounded range" (the boost distribution is missing).  One draw in
    [0, bound). *)
Definition draw (bound : nat) (r : Rng) : nat * Rng :=
  let '(x, st) := rng_next g (fst r) in
  let j := (x mod bound)%nat in
  (j, (st, snd r ++ [j])).

(** Modelled from the spec: the shuffle of [generateDecoySequences_]
    (MRMAssay.cpp, missing), "pseudorandom permutation (shuffle) of its
    residues (not independent redraws)": every residue is put at a drawn
    position among those already placed. *)
Fixpoint shuffle (l : list ascii) (r : Rng) : list ascii * Rng :=
  match l with
  | [] => ([], r)
  | c :: rest =>
      let '(placed, r1) := shuffle rest r in
      let '(j, r2) := draw (S (length placed)) r1 in
      (take j placed ++ c :: drop j placed, r2)
  end.

Definition shuffleSequence (sequence : string) (r : Rng) : string * Rng :=
  let '(l, r') := shuffle (list_ascii_of_string sequence) r in
  (string_of_list_ascii l, r').

(** Modelled from the spec: the retry of [generateDecoySequences_]
    (MRMAssay.cpp, missing), "re-shuffles if the result equals the original
    sequence": the loop [do shuffle while (decoy == target)], with [fuel]
    bounding the number of rounds; [None] when the fuel is used up. *)
Fixpoint decoyOf (fuel : nat) (target : string) (r : Rng) : option string * Rng :=
  match fuel with
  | O => (None, r)
  | S fuel' =>
      let '(decoy, r') := shuffleSequence target r in
      if String.eqb decoy target then decoyOf fuel' target r' else (Some decoy, r')
  end.

(** The generator when round [n] of that loop begins (rounds counted from
    0), and the shuffle the round makes. *)
Fixpoint afterRounds (n : nat) (target : string) (r : Rng) : Rng :=
  match n with
  | O => r
  | S n' => afterRounds n' target (snd (shuffleSequence target r))
  end.

Definition roundShuffle (n : nat) (target : string) (r : Rng) : string :=
  fst (shuffleSequence target (afterRounds n target r)).

(** Modelled from the spec: the traversal of [generateDecoySequences_]
    (MRMAssay.cpp, missing): the stripped sequences of the target map, in
    iteration order. *)
Definition targetSequences (TargetSequenceMap : gmap nat (gmap string (gset string)))
  : list string :=
  flat_map (fun swath => map fst (map_to_list (snd swath))) (map_to_list TargetSequenceMap).

(** Modelled from the spec: the map loop of [generateDecoySequences_]
    (MRMAssay.cpp, missing), "builds a global sequence -> decoy map so that
    repeated target sequences reuse one decoy": a sequence that has a decoy
    is left alone. *)
Fixpoint fillDecoys (fuel : nat) (targets : list string)
         (DecoySequenceMap : gmap string string) (r : Rng)
  : option (gmap string string) * Rng :=
  match targets with
  | [] => (Some DecoySequenceMap, r)
  | target :: rest =>
      match DecoySequenceMap !! target with
      | Some _ => fillDecoys fuel rest DecoySequenceMap r
      | None =>
          match decoyOf fuel target r with
          | (Some decoy, r') => fillDecoys fuel rest (<[target := decoy]> DecoySequenceMap) r'
          | (None, r') => (None, r')
          end
      end
  end.

(** Modelled from the spec: the seed choice of [generateDecoySequences_]
    (MRMAssay.cpp, missing), "seeded either from the given integer seed or
    from wall-clock time (seed = -1)". *)
Definition selectSeed (clock shuffle_seed : Z) : Z :=
  if Z.eqb shuffle_seed (-1) then clock else shuffle_seed.

(** Modelled from the spec: the body of
    [MRMAssay::generateDecoySequences_] (MRMAssay.cpp) is missing.  "For
    each distinct target stripped sequence, produces a decoy by
    pseudorandom permutation (shuffle) of its residues, seeded either
    from the given integer seed or from wall-clock time (seed = -1);
    re-shuffles if the result equals the original sequence; builds a
    global sequence -> decoy map."  [clock] is what [time(0)] reads;
    the result is the filled [DecoySequenceMap] (or [None] when a
    re-shuffle loop does not end within [fuel] rounds) and the
    generator with the draws it made. *)
Definition generateDecoySequences_ (fuel : nat) (clock : Z)
           (TargetSequenceMap : gmap nat (gmap string (gset string)))
           (DecoySequenceMap : gmap string string) (shuffle_seed : Z)
  : option (gmap string string) * Rng :=
  fillDecoys fuel (targetSequences TargetSequenceMap) DecoySequenceMap
             (seeded (selectSeed clock shuffle_seed)).

End Decoys.

(** A linear congruential generator, for running the examples. *)
Definition lcg : PRNG :=
  mkPRNG Z (fun seed => seed)
         (fun st => let st' := (1103515245 * st + 12345) mod 2147483648 in
                    (Z.to_nat (st' / 65536), st')).

(** The decoy is a shuffle of the target's residues, is not the target, and
    so differs from it at some residue. *)
Definition decoyValid (target decoy : string) : Prop :=
  Permutation (list_ascii_of_string decoy) (list_ascii_of_string target) /\
  decoy <> target /\
  exists i : nat, (i < String.length target)%nat /\ String.get i decoy <> String.get i target.

(** Every entry of the map is such a decoy. *)
Definition decoysValid (DecoySequenceMap : gmap string string) : Prop :=
  forall target decoy,
    DecoySequenceMap !! target = Some decoy -> decoyValid target decoy.

(** A target map for the examples: two swath windows, one sequence in both. *)
Definition exampleTargets : gmap nat (gmap string (gset string)) :=
  {[ 0%nat := {[ "PEPTIDEK"%string := ∅; "SASK"%string := ∅ ]};
     1%nat := {[ "SASK"%string := ∅; "ELVISK"%string := ∅ ]} ]}.

(** ** The configuration surface of [uisTransitions] *)

(** The arguments every call writes out. *)
Record UisRequired : Type := mkUisRequired {
  fragment_types : list string;
  fragment_charges : list nat;
  enable_specific_losses : bool;
  enable_unspecific_losses : bool;
  enable_ms2_precursors : bool;
  mz_threshold : Q;
  swathes : list SwathWindow
}.

(** The four trailing arguments, which have defaults. *)
Record UisOptions : Type := mkUisOptions {
  round_decPow : Z;
  max_num_alternative_localizations : nat;
  shuffle_seed : Z;
  disable_decoy_transitions : bool
}.

(** What a call site writes for the trailing arguments: C++ lets it leave
    out any suffix of them. *)
Inductive UisTrailing : Type :=
| Given0
| Given1 (round_decPow : Z)
| Given2 (round_decPow : Z) (max_num_alternative_localizations : nat)
| Given3 (round_decPow : Z) (max_num_alternative_localizations : nat) (shuffle_seed : Z)
| Given4 (round_decPow : Z) (max_num_alternative_localizations : nat) (shuffle_seed : Z)
         (disable_decoy_transitions : bool).

(** The defaults of the declaration of [uisTransitions]:
    [int round_decPow = -4], [size_t max_num_alternative_localizations = 20],
    [int shuffle_seed = -1], [bool disable_decoy_transitions = false]. *)
Definition default_round_decPow : Z := -4.
Definition default_max_num_alternative_localizations : nat := 20.
Definition default_shuffle_seed : Z := -1.
Definition default_disable_decoy_transitions : bool := false.

(** The compiler fills in the arguments left out. *)
Definition completeArguments (t : UisTrailing) : UisOptions :=
  match t with
  | Given0 =>
      mkUisOptions default_round_decPow default_max_num_alternative_localizations
                   default_shuffle_seed default_disable_decoy_transitions
  | Given1 r =>
      mkUisOptions r default_max_num_alternative_localizations
                   default_shuffle_seed default_disable_decoy_transitions
  | Given2 r m => mkUisOptions r m default_shuffle_seed default_disable_decoy_transitions
  | Given3 r m s => mkUisOptions r m s default_disable_decoy_transitions
  | Given4 r m s d => mkUisOptions r m s d
  end.

Section UisCall.

(** The experiment type and the body of [uisTransitions] are defined
    outside the header. *)
Variable TargetedExperiment : Type.
Variable uisTransitionsBody :
  TargetedExperiment -> UisRequired -> UisOptions -> TargetedExperiment.

(** A call of [uisTransitions(exp, ...)]; the result is the experiment
    after the call. *)
Definition uisTransitions (exp : TargetedExperiment) (required : UisRequired)
           (trailing : UisTrailing) : TargetedExperiment :=
  uisTransitionsBody exp required (completeArguments trailing).

End UisCall.

End MRMAssay.

(** ** The labeling hooks of [BaseLabeler] *)

Module BaseLabeler.

(** The exception classes the header names. *)
Inductive ExceptionClass : Type :=
| NotImplemented
| InvalidParameter.

Definition ExceptionClass_eqb (a b : ExceptionClass) : bool :=
  match a, b with
  | NotImplemented, NotImplemented => true
  | InvalidParameter, InvalidParameter => true
  | _, _ => false
  end.

(** What a [throw] expression throws: [throw E(...)] throws an object of
    class [E]; [throw new E(...)] throws a pointer to a heap-allocated
    one. *)
Inductive Thrown : Type :=
| ThrownObject (c : ExceptionClass)
| ThrownPointer (c : ExceptionClass).

(** How a call of a [void] member function ends: it returns, leaving the
    arguments it got by reference in some state, or it throws. *)
Inductive Outcome (S : Type) : Type :=
| Returns (s : S)
| Throws (t : Thrown).
Arguments Returns {S} s.
Arguments Throws {S} t.

(** The clause of a handler: [catch (E)], [catch (E&)] and
    [catch (const E&)] are [CatchObject E]; [catch (E* )] is
    [CatchPointer E]; [catch (...)] is [CatchAll]. *)
Inductive Handler : Type :=
| CatchObject (c : ExceptionClass)
| CatchPointer (c : ExceptionClass)
| CatchAll.

Section Hooks.

(** The simulation types (SimTypes.h) and [Param]. *)
Variables FeatureMapSimVector MSSimExperiment Param : Type.

(** [virtual void preCheck(Param &) const]. *)
Definition preCheck (param : Param) : Outcome Param :=
  Throws (ThrownPointer NotImplemented).

(** The exception the documentation of [preCheck] announces ([@throws]). *)
Definition preCheck_documented_throws : ExceptionClass := InvalidParameter.

(** [virtual void setUpHook(FeatureMapSimVector &)]: the body is empty. *)
Definition setUpHook (features : FeatureMapSimVector) : Outcome FeatureMapSimVector :=
  Returns features.

Definition postDigestHook (features_to_simulate : FeatureMapSimVector)
  : Outcome FeatureMapSimVector :=
  Throws (ThrownObject NotImplemented).

Definition postRTHook (features_to_simulate : FeatureMapSimVector)
  : Outcome FeatureMapSimVector :=
  Throws (ThrownObject NotImplemented).

Definition postDetectabilityHook (features_to_simulate : FeatureMapSimVector)
  : Outcome FeatureMapSimVector :=
  Throws (ThrownObject NotImplemented).

Definition postIonizationHook (features_to_simulate : FeatureMapSimVector)
  : Outcome FeatureMapSimVector :=
  Throws (ThrownObject NotImplemented).

Definition postRawMSHook (features_to_simulate : FeatureMapSimVector)
  : Outcome FeatureMapSimVector :=
  Throws (ThrownObject NotImplemented).

Definition postRawTandemMSHook (features_to_simulate : FeatureMapSimVector)
           (simulated_map : MSSimExperiment)
  : Outcome (FeatureMapSimVector * MSSimExperiment) :=
  Throws (ThrownObject NotImplemented).

(** The members of the group "Labeling Hooks". *)
Inductive Hook : Type :=
| SetUpHook
| PostDigestHook
| PostRTHook
| PostDetectabilityHook
| PostIonizationHook
| PostRawMSHook
| PostRawTandemMSHook.

Definition allHooks : list Hook :=
  [SetUpHook; PostDigestHook; PostRTHook; PostDetectabilityHook;
   PostIonizationHook; PostRawMSHook; PostRawTandemMSHook].

Definition withMap {S : Type} (simulated_map : MSSimExperiment) (o : Outcome S)
  : Outcome (S * MSSimExperiment) :=
  match o with
  | Returns s => Returns (s, simulated_map)
  | Throws t => Throws t
  end.

(** Calling a hook of a labeler that overrides none of them. *)
Definition invoke (h : Hook) (features : FeatureMapSimVector)
           (simulated_map : MSSimExperiment)
  : Outcome (FeatureMapSimVector * MSSimExperiment) :=
  match h with
  | SetUpHook => withMap simulated_map (setUpHook features)
  | PostDigestHook => withMap simulated_map (postDigestHook features)
  | PostRTHook => withMap simulated_map (postRTHook features)
  | PostDetectabilityHook => withMap simulated_map (postDetectabilityHook features)
  | PostIonizationHook => withMap simulated_map (postIonizationHook features)
  | PostRawMSHook => withMap simulated_map (postRawMSHook features)
  | PostRawTandemMSHook => postRawTandemMSHook features simulated_map
  end.

End Hooks.

Section Handlers.

(** [isBaseOf b d]: class [b] is a proper base of class [d]
    (Exception.h declares the hierarchy). *)
Variable isBaseOf : ExceptionClass -> ExceptionClass -> bool.

Definition classMatches (handled thrown : ExceptionClass) : bool :=
  ExceptionClass_eqb handled thrown || isBaseOf handled thrown.

(** Does the handler take the exception?  An object is matched by a
    handler for its class or a base of it, a pointer by a handler for a
    pointer to its class or to a base; [catch (...)] takes everything. *)
Definition catches (h : Handler) (t : Thrown) : bool :=
  match h, t with
  | CatchAll, _ => true
  | CatchObject c, ThrownObject c' => classMatches c c'
  | CatchPointer c, ThrownPointer c' => classMatches c c'
  | _, _ => false
  end.

(** [try { body } catch (h) { recover }]. *)
Definition tryCatch {S : Type} (body : Outcome S) (h : Handler)
           (recover : Thrown -> Outcome S) : Outcome S :=
  match body with
  | Returns s => Returns s
  | Throws t => if catches h t then recover t else Throws t
  end.

End Handlers.

End BaseLabeler.

(** ** [JavaInfo::canRun] *)

Module JavaInfo.

(** What the function reaches outside itself. *)
Record Env : Type := mkEnv {
  (** [File::find(exe)]: [true] when it returns, [false] when it throws. *)
  File_find : string -> bool;
  (** [qp.start(exe, "-version", ReadOnly)] then [qp.waitForFinished()]. *)
  QProcess_waitForFinished : string -> bool;
  QDir_isRelativePath : string -> bool;
  (** [getenv("PATH")]: the value of the variable, or [None] for the null
      pointer [getenv] returns when the variable is not set. *)
  getenv_PATH : option string;
  (** Compiled with [__APPLE__] defined. *)
  apple : bool
}.

(** The messages sent to [LOG_ERROR]. *)
Inductive LogMessage : Type :=
| JavaNotFound (java_executable : string)
| AddJavaToPath (path : string) (macosx_note : bool)
| CheckAbsolutePath
| FoundButCannotExecute (java_executable : string).

(** The state the function works on: the error log, the function's
    [static String path], and the processes started. *)
Record State : Type := mkState {
  log_error : list LogMessage;
  static_path : string;
  started : list string
}.

(** How a statement ends: with a value, or with the exception that building
    a [String] from a null [char] pointer raises.  Nothing in the function
    catches it, so it leaves [canRun]. *)
Inductive Result (A : Type) : Type :=
| Returned (a : A)
| ThrewNullString.
Arguments Returned {A} a.
Arguments ThrewNullString {A}.

(** Statements: state transformers that yield a value or throw. *)
Definition M (A : Type) : Type := State -> Result A * State.

#[export] Instance M_ret : MRet M := fun A a st => (Returned a, st).

#[export] Instance M_bind : MBind M :=
  fun A B k m st =>
    match m st with
    | (Returned a, st') => k a st'
    | (ThrewNullString, st') => (ThrewNullString, st')
    end.

Definition LOG_ERROR (msg : LogMessage) : M unit :=
  fun st => (Returned tt, mkState (log_error st ++ [msg]) (static_path st) (started st)).

Definition getStaticPath : M string := fun st => (Returned (static_path st), st).

(** [path = p] for a [char] pointer [p]: the [String] is built from the
    pointer and assigned; from the null pointer it cannot be built, and the
    static keeps its value. *)
Definition assignStaticPath (p : option string) : M unit :=
  fun st =>
    match p with
    | Some value => (Returned tt, mkState (log_error st) value (started st))
    | None => (ThrewNullString, st)
    end.

Definition when (b : bool) (m : M unit) : M unit := if b then m else mret tt.

Section CanRun.

Variable env : Env.

(** [qp.start(...); qp.waitForFinished()]. *)
Definition startAndWait (java_executable : string) : M bool :=
  fun st => (Returned (QProcess_waitForFinished env java_executable),
             mkState (log_error st) (static_path st) (started st ++ [java_executable])).

(** The messages of the [catch] block. *)
Definition reportNotFound (java_executable : string) : M unit :=
  LOG_ERROR (JavaNotFound java_executable) ;;
  if QDir_isRelativePath env java_executable
  then
    path ← getStaticPath ;
    when (String.eqb path EmptyString) (assignStaticPath (getenv_PATH env)) ;;
    path' ← getStaticPath ;
    LOG_ERROR (AddJavaToPath path' (apple env))
  else LOG_ERROR CheckAbsolutePath.

(** The second half: "then, check if it can be run". *)
Definition checkRun (java_executable : string) (verbose_on_error : bool) : M bool :=
  success ← startAndWait java_executable ;
  when (negb success && verbose_on_error)
       (LOG_ERROR (FoundButCannotExecute java_executable)) ;;
  mret success.

(** [bool JavaInfo::canRun(const String& java_executable, bool verbose_on_error)]. *)
Definition canRun (java_executable : string) (verbose_on_error : bool) : M bool :=
  if File_find env java_executable
  then checkRun java_executable verbose_on_error
  else
    if verbose_on_error
    then reportNotFound java_executable ;; mret false
    else checkRun java_executable verbose_on_error.

(** The one situation in which the call evaluates [getenv("PATH")]: the
    file is missing, the call is verbose, the path is relative and the
    static is empty. *)
Definition readsPATH (java_executable : string) (verbose_on_error : bool)
           (st : State) : bool :=
  negb (File_find env java_executable) && verbose_on_error &&
  QDir_isRelativePath env java_executable &&
  String.eqb (static_path st) EmptyString.

End CanRun.

Definition initial : State := mkState [] EmptyString [].

(** An environment for the examples: no file is found, every process
    finishes. *)
Definition missingButRunnable : Env :=
  mkEnv (fun _ => false) (fun _ => true) (fun _ => true) (Some "/usr/bin"%string) false.

(** The same with PATH not set. *)
Definition missingNoPATH : Env :=
  mkEnv (fun _ => false) (fun _ => true) (fun _ => true) None false.

End JavaInfo.

(** ** Derived labelers and sequences of hook calls *)

Module Labeling.

Import BaseLabeler.

Section Derived.

Variables FeatureMapSimVector MSSimExperiment : Type.

(** A class derived from [BaseLabeler]: for each [virtual] hook, the body
    the class overrides it with, or [None] when it inherits the one of
    [BaseLabeler]. *)
Record Overrides : Type := mkOverrides {
  o_setUpHook : option (FeatureMapSimVector -> Outcome FeatureMapSimVector);
  o_postDigestHook : option (FeatureMapSimVector -> Outcome FeatureMapSimVector);
  o_postRTHook : option (FeatureMapSimVector -> Outcome FeatureMapSimVector);
  o_postDetectabilityHook : option (FeatureMapSimVector -> Outcome FeatureMapSimVector);
  o_postIonizationHook : option (FeatureMapSimVector -> Outcome FeatureMapSimVector);
  o_postRawMSHook : option (FeatureMapSimVector -> Outcome FeatureMapSimVector);
  o_postRawTandemMSHook :
    option (FeatureMapSimVector -> MSSimExperiment ->
            Outcome (FeatureMapSimVector * MSSimExperiment))
}.

(** A labeler that overrides nothing. *)
Definition inheritsAll : Overrides :=
  mkOverrides None None None None None None None.

Definition overridden (derived : Overrides) (h : Hook) : bool :=
  match h with
  | SetUpHook => bool_decide (is_Some (o_setUpHook derived))
  | PostDigestHook => bool_decide (is_Some (o_postDigestHook derived))
  | PostRTHook => bool_decide (is_Some (o_postRTHook derived))
  | PostDetectabilityHook => bool_decide (is_Some (o_postDetectabilityHook derived))
  | PostIonizationHook => bool_decide (is_Some (o_postIonizationHook derived))
  | PostRawMSHook => bool_decide (is_Some (o_postRawMSHook derived))
  | PostRawTandemMSHook => bool_decide (is_Some (o_postRawTandemMSHook derived))
  end.

(** A virtual call [labeler.h(features)]: the override when the class has
    one, the body of [BaseLabeler] otherwise. *)
Definition call (derived : Overrides) (h : Hook) (features : FeatureMapSimVector)
           (simulated_map : MSSimExperiment)
  : Outcome (FeatureMapSimVector * MSSimExperiment) :=
  match h with
  | SetUpHook =>
      withMap MSSimExperiment simulated_map
        (default (setUpHook FeatureMapSimVector) (o_setUpHook derived) features)
  | PostDigestHook =>
      withMap MSSimExperiment simulated_map
        (default (postDigestHook FeatureMapSimVector) (o_postDigestHook derived) features)
  | PostRTHook =>
      withMap MSSimExperiment simulated_map
        (default (postRTHook FeatureMapSimVector) (o_postRTHook derived) features)
  | PostDetectabilityHook =>
      withMap MSSimExperiment simulated_map
        (default (postDetectabilityHook FeatureMapSimVector)
                 (o_postDetectabilityHook derived) features)
  | PostIonizationHook =>
      withMap MSSimExperiment simulated_map
        (default (postIonizationHook FeatureMapSimVector)
                 (o_postIonizationHook derived) features)
  | PostRawMSHook =>
      withMap MSSimExperiment simulated_map
        (default (postRawMSHook FeatureMapSimVector) (o_postRawMSHook derived) features)
  | PostRawTandemMSHook =>
      default (postRawTandemMSHook FeatureMapSimVector MSSimExperiment)
              (o_postRawTandemMSHook derived) features simulated_map
  end.

(** Hook calls one after the other, [labeler.h1(features); labeler.h2(...);]
    and so on: each works on what the one before left, and the first throw
    ends the sequence. *)
Fixpoint runHooks (derived : Overrides) (hooks : list Hook)
         (features : FeatureMapSimVector) (simulated_map : MSSimExperiment)
  : Outcome (FeatureMapSimVector * MSSimExperiment) :=
  match hooks with
  | [] => Returns (features, simulated_map)
  | h :: rest =>
      match call derived h features simulated_map with
      | Returns (features', simulated_map') => runHooks derived rest features' simulated_map'
      | Throws t => Throws t
      end
  end.

(** The hooks the class leaves to [BaseLabeler] whose body there throws. *)
Definition needsOverride (derived : Overrides) (h : Hook) : bool :=
  match h with
  | SetUpHook => false
  | _ => negb (overridden derived h)
  end.

End Derived.

End Labeling.

Import MRMAssay.

(** * Properties *)

(** ** Swath window lookup *)

Section SwathLookup.

Lemma in_window_contains (w : SwathWindow) (mz : Q) :
  in_window w mz = true <-> contains w mz.
Proof.
  unfold in_window, contains.
  rewrite andb_true_iff, !Qle_bool_iff. reflexivity.
Qed.

Lemma in_window_false (w : SwathWindow) (mz : Q) :
  in_window w mz = false <-> ~ contains w mz.
Proof.
  rewrite <- in_window_contains. destruct (in_window w mz); split; congruence.
Qed.

(** The scan started at index [i] either finds no window and answers -1, or
    stops at the first window that contains the value, [k] places on. *)
Lemma getSwath_from_scan (swathes : list SwathWindow) (mz : Q) :
  forall i : Z,
    (getSwath_from i swathes mz = -1 /\ Forall (fun w => ~ contains w mz) swathes) \/
    (exists (k : nat) (w : SwathWindow),
        swathes !! k = Some w /\ contains w mz /\
        (forall (j : nat) (w' : SwathWindow),
            (j < k)%nat -> swathes !! j = Some w' -> ~ contains w' mz) /\
        getSwath_from i swathes mz = i + Z.of_nat k).
Proof.
  induction swathes as [|w rest IH]; intros i; simpl.
  - left. split; [reflexivity | constructor].
  - destruct (in_window w mz) eqn:Hw.
    + right. exists O, w. split; [reflexivity|]. split; [|split].
      * now apply in_window_contains.
      * intros j w' Hj. lia.
      * lia.
    + apply in_window_false in Hw.
      destruct (IH (i + 1)) as [[Hnone Hall] | (k & w1 & Hk & Hc & Hbefore & Hres)].
      * left. split; [exact Hnone | now constructor].
      * right. exists (S k), w1. split; [exact Hk|]. split; [exact Hc|]. split.
        -- intros [|j] w' Hj Hl; simpl in Hl.
           ++ now inversion Hl; subst.
           ++ apply (Hbefore j w'); [lia | exact Hl].
        -- rewrite Hres. lia.
Qed.

(** C6: [getSwath_] answers the index of the first window whose bounds
    contain [precursor_mz], and the sentinel -1 exactly when no window
    contains it; on the windows (400,500), (500,600) it answers 0 for 450,
    1 for 550 and -1 for 650. *)
Theorem getSwath_first_window (swathes : list SwathWindow) (precursor_mz : Q) :
  (forall i : nat,
      getSwath_ swathes precursor_mz = Z.of_nat i <->
      (exists w, swathes !! i = Some w /\ contains w precursor_mz) /\
      (forall (j : nat) (w' : SwathWindow),
          (j < i)%nat -> swathes !! j = Some w' -> ~ contains w' precursor_mz)) /\
  (getSwath_ swathes precursor_mz = -1 <->
   forall w, In w swathes -> ~ contains w precursor_mz) /\
  getSwath_ [(400#1, 500#1); (500#1, 600#1)] (450#1) = 0 /\
  getSwath_ [(400#1, 500#1); (500#1, 600#1)] (550#1) = 1 /\
  getSwath_ [(400#1, 500#1); (500#1, 600#1)] (650#1) = -1.
Proof.
  unfold getSwath_.
  split; [|split; [|repeat split; reflexivity]].
  - intros i.
    destruct (getSwath_from_scan swathes precursor_mz 0)
      as [[Hnone Hall] | (k & w & Hk & Hc & Hbefore & Hres)].
    + rewrite Hnone. split; [lia|].
      intros [(w & Hi & Hc) _]. exfalso.
      rewrite Forall_forall in Hall.
      apply (Hall w); [|exact Hc].
      eapply list_elem_of_lookup_2; eauto.
    + rewrite Hres. split.
      * intros Heq. assert (k = i) by lia. subst k. split; eauto.
      * intros [(w1 & Hi & Hc1) Hfirst].
        destruct (Nat.lt_trichotomy k i) as [Hlt | [Heq | Hgt]].
        -- exfalso. exact (Hfirst k w Hlt Hk Hc).
        -- subst. lia.
        -- exfalso. exact (Hbefore i w1 Hgt Hi Hc1).
  - destruct (getSwath_from_scan swathes precursor_mz 0)
      as [[Hnone Hall] | (k & w & Hk & Hc & Hbefore & Hres)].
    + rewrite Hnone. split; [|reflexivity].
      intros _ w Hin. rewrite Forall_forall in Hall.
      apply Hall. now apply list_elem_of_In.
    + rewrite Hres. split; [lia|].
      intros Hall. exfalso. apply (Hall w); [|exact Hc].
      apply list_elem_of_In. eapply list_elem_of_lookup_2; eauto.
Qed.

End SwathLookup.

(** ** The UIS matcher *)

Section Matcher.

(** The two one-sided comparisons of the scan say [|f - d| <= t]. *)
Lemma within_threshold_abs (f d t : Q) :
  within_threshold f d t = true <-> (Qabs (f - d) <= t)%Q.
Proof.
  unfold within_threshold.
  rewrite andb_true_iff, !Qle_bool_iff, Qabs_Qle_condition.
  split; intros [H1 H2]; split; lra.
Qed.

Lemma within_threshold_Qle_bool (f d t : Q) :
  within_threshold f d t = Qle_bool (Qabs (f - d)) t.
Proof.
  destruct (Qle_bool (Qabs (f - d)) t) eqn:H.
  - apply within_threshold_abs. now apply Qle_bool_iff.
  - destruct (within_threshold f d t) eqn:Hw; [|reflexivity].
    apply within_threshold_abs, Qle_bool_iff in Hw. congruence.
Qed.

(** C1: [getMatchingPeptidoforms_] returns exactly the labels of the pairs
    whose stored m/z [d] has [|f - d| <= t], bounds included; on the ions
    (500.0, A), (500.0005, B), (600.0, C) with t = 0.001 the query 500.0002
    gives A and B, the query 600.0 gives C alone. *)
Theorem getMatchingPeptidoforms_exact (fragment_ion : Q) (ions : list (Q * string))
        (mz_threshold : Q) :
  getMatchingPeptidoforms_ fragment_ion ions mz_threshold =
    map snd (List.filter (fun p => Qle_bool (Qabs (fragment_ion - fst p)) mz_threshold) ions) /\
  (forall label : string,
      In label (getMatchingPeptidoforms_ fragment_ion ions mz_threshold) <->
      exists d : Q, In (d, label) ions /\ (Qabs (fragment_ion - d) <= mz_threshold)%Q) /\
  getMatchingPeptidoforms_ (5000002#10000)
    [(500#1, "A"%string); (5000005#10000, "B"%string); (600#1, "C"%string)] (1#1000)
    = ["A"%string; "B"%string] /\
  getMatchingPeptidoforms_ (600#1)
    [(500#1, "A"%string); (5000005#10000, "B"%string); (600#1, "C"%string)] (1#1000)
    = ["C"%string].
Proof.
  assert (Heq : getMatchingPeptidoforms_ fragment_ion ions mz_threshold =
    map snd (List.filter (fun p => Qle_bool (Qabs (fragment_ion - fst p)) mz_threshold) ions)).
  { induction ions as [|[d label] rest IH]; [reflexivity|].
    cbn [getMatchingPeptidoforms_ List.filter map fst snd].
    rewrite within_threshold_Qle_bool, IH.
    now destruct (Qle_bool (Qabs (fragment_ion - d)) mz_threshold). }
  split; [exact Heq|]. split; [|split; reflexivity].
  intros label. rewrite Heq, in_map_iff. split.
  - intros ([d l] & Hl & Hin). simpl in Hl. subst l.
    apply filter_In in Hin. destruct Hin as [Hin Hle].
    exists d. split; [exact Hin|]. now apply Qle_bool_iff.
  - intros (d & Hin & Hle). exists (d, label). split; [reflexivity|].
    apply filter_In. split; [exact Hin|]. now apply Qle_bool_iff.
Qed.

End Matcher.

(** ** The combination enumerator *)

Section Combinations.

Lemma binom_0_r (n : nat) : binom n 0 = 1%nat.
Proof. now destruct n. Qed.

Lemma binom_above (n : nat) : forall k : nat, (n < k)%nat -> binom n k = 0%nat.
Proof.
  induction n as [|n IH]; intros [|k] Hk; simpl; try lia.
  rewrite !IH by lia. reflexivity.
Qed.

Lemma binom_diag (n : nat) : binom n n = 1%nat.
Proof.
  induction n as [|n IH]; [reflexivity|].
  simpl. rewrite IH, binom_above by lia. reflexivity.
Qed.

Lemma binom_step (n k : nat) : binom (S n) (S k) = (binom n k + binom n (S k))%nat.
Proof. reflexivity. Qed.
Lemma fact_step (n : nat) : fact (S n) = (S n * fact n)%nat.
Proof. reflexivity. Qed.

(** [binom] is the usual coefficient: C(n,k) k! (n-k)! = n!. *)
Lemma binom_factorial (n : nat) :
  forall k : nat, (k <= n)%nat -> (binom n k * (fact k * fact (n - k)) = fact n)%nat.
Proof.
  induction n as [|n IH]; intros [|k] Hk; try lia.
  - reflexivity.
  - rewrite binom_0_r, Nat.sub_0_r. change (fact 0) with 1%nat. lia.
  - destruct (Nat.eq_dec k n) as [-> | Hne].
    + rewrite binom_diag, Nat.sub_diag. change (fact 0) with 1%nat. lia.
    + pose proof (IH k ltac:(lia)) as H1.
      pose proof (IH (S k) ltac:(lia)) as H2.
      rewrite binom_step.
      replace (S n - S k)%nat with (S (n - S k)) by lia.
      replace (n - k)%nat with (S (n - S k)) in H1 by lia.
      rewrite !fact_step in H1. rewrite !fact_step in H2. rewrite !fact_step.
      transitivity (S k * (binom n k * (fact k * (S (n - S k) * fact (n - S k)))) +
                    S (n - S k) * (binom n (S k) * (S k * fact k * fact (n - S k))))%nat;
        [ring|].
      rewrite H1, H2, <- Nat.mul_add_distr_r. f_equal. lia.
Qed.

Lemma subsetsOf_count (n : list nat) :
  forall k : nat, length (subsetsOf n k) = binom (length n) k.
Proof.
  induction n as [|i rest IH]; intros [|k]; simpl; try reflexivity.
  rewrite length_app, length_map, !IH. reflexivity.
Qed.

(** [subsetsOf] holds the subsequences of [n] of length [k], and nothing
    else. *)
Lemma subsetsOf_elem (n : list nat) :
  forall (k : nat) (c : list nat),
    c ∈ subsetsOf n k <-> sublist c n /\ length c = k.
Proof.
  induction n as [|i rest IH]; intros [|k] c; simpl.
  - rewrite list_elem_of_singleton, sublist_nil_r.
    split; [intros ->; split; reflexivity | tauto].
  - rewrite elem_of_nil, sublist_nil_r.
    split; [tauto | intros [-> H]; discriminate].
  - rewrite list_elem_of_singleton. split.
    + intros ->. split; [apply sublist_nil_l | reflexivity].
    + intros [_ H]. now apply length_zero_iff_nil.
  - rewrite elem_of_app, sublist_cons_r, IH. split.
    + intros [Hin | [Hs Hl]].
      * apply list_elem_of_In, in_map_iff in Hin.
        destruct Hin as (c' & <- & Hc'). apply list_elem_of_In, IH in Hc'.
        destruct Hc' as [Hs Hl]. split; [right; eauto | simpl; lia].
      * split; [now left | exact Hl].
    + intros [[Hs | (c' & -> & Hs)] Hl].
      * right. split; assumption.
      * left. apply list_elem_of_In, in_map_iff. exists c'. split; [reflexivity|].
        apply list_elem_of_In, IH. split; [exact Hs | simpl in Hl; lia].
Qed.

Lemma subsetsOf_NoDup (n : list nat) :
  NoDup n -> forall k : nat, NoDup (subsetsOf n k).
Proof.
  induction n as [|i rest IH]; intros Hn [|k]; simpl;
    try (apply NoDup_singleton); try (apply NoDup_nil_2).
  apply NoDup_cons in Hn. destruct Hn as [Hi Hrest].
  apply NoDup_app. split; [|split].
  - apply (NoDup_fmap_2 (cons i)). now apply IH.
  - intros c Hc Hc'.
    apply list_elem_of_In, in_map_iff in Hc. destruct Hc as (c' & <- & _).
    apply subsetsOf_elem in Hc'. destruct Hc' as [Hs _].
    apply Hi. eapply sublist_cons_l in Hs. destruct Hs as (k1 & k2 & -> & _).
    apply elem_of_app. right. left.
  - now apply IH.
Qed.

Lemma sublist_StronglySorted (c n : list nat) :
  sublist c n -> StronglySorted le n -> StronglySorted le c.
Proof.
  induction 1 as [|x c n Hs IH|x c n Hs IH]; intros Hn.
  - constructor.
  - apply StronglySorted_inv in Hn. destruct Hn as [Hn Hx].
    constructor; [now apply IH|].
    rewrite Forall_forall in *. intros y Hy. apply Hx.
    now apply (elem_of_sublist c n).
  - apply StronglySorted_inv in Hn. now apply IH.
Qed.

(** An ascending selection of entries of an ascending vector is a
    subsequence of it. *)
Lemma ascending_submseteq_sublist (n : list nat) :
  forall c : list nat,
    StronglySorted le c -> StronglySorted le n -> c ⊆+ n -> sublist c n.
Proof.
  induction n as [|x n IH]; intros c Hc Hn Hsub.
  - apply submseteq_nil_r in Hsub. subst. constructor.
  - destruct c as [|y c]; [apply sublist_nil_l|].
    apply StronglySorted_inv in Hn. destruct Hn as [Hn Hx].
    apply submseteq_cons_r in Hsub.
    destruct Hsub as [Hsub | (c2 & Hperm & Hsub)].
    + apply sublist_cons. now apply IH.
    + assert (Hyx : y = x).
      { apply StronglySorted_inv in Hc. destruct Hc as [_ Hy].
        rewrite Forall_forall in Hx, Hy.
        assert (Hxin : x ∈ y :: c) by (rewrite Hperm; left).
        assert (Hyin : y ∈ x :: c2) by (rewrite <- Hperm; left).
        apply elem_of_cons in Hxin. destruct Hxin as [-> | Hxin]; [reflexivity|].
        apply elem_of_cons in Hyin. destruct Hyin as [-> | Hyin]; [reflexivity|].
        specialize (Hy x Hxin).
        assert (x <= y)%nat by (apply Hx; now apply (elem_of_submseteq c2 n)).
        lia. }
      subst y. apply Permutation_cons_inv in Hperm.
      apply sublist_skip. apply IH; [|exact Hn|now rewrite Hperm].
      now apply StronglySorted_inv in Hc.
Qed.

Lemma sorted_indices (n : list nat) : StronglySorted le (merge_sort le n).
Proof. apply (StronglySorted_merge_sort le). Qed.

Lemma nchoosek_count (n : list nat) (k : nat) :
  length (nchoosekcombinations_ n k) = binom (length n) k.
Proof.
  unfold nchoosekcombinations_.
  now rewrite subsetsOf_count, (Permutation_length (merge_sort_Permutation le n)).
Qed.

Lemma nchoosek_zero (n : list nat) : nchoosekcombinations_ n 0 = [[]].
Proof. unfold nchoosekcombinations_. now destruct (merge_sort le n). Qed.

Lemma nchoosek_too_many (n : list nat) (k : nat) :
  (length n < k)%nat -> nchoosekcombinations_ n k = [].
Proof.
  intros Hk. apply length_zero_iff_nil.
  rewrite nchoosek_count. now apply binom_above.
Qed.

(** The result holds the ascending selections of [k] entries of [n], and
    nothing else. *)
Lemma nchoosek_elem (n : list nat) (k : nat) (c : list nat) :
  c ∈ nchoosekcombinations_ n k <->
  c ⊆+ n /\ StronglySorted le c /\ length c = k.
Proof.
  unfold nchoosekcombinations_. rewrite subsetsOf_elem. split.
  - intros [Hs Hl]. split; [|split; [|exact Hl]].
    + rewrite <- (merge_sort_Permutation le n). now apply sublist_submseteq.
    + eapply sublist_StronglySorted; [exact Hs | apply sorted_indices].
  - intros (Hsub & Hc & Hl). split; [|exact Hl].
    apply ascending_submseteq_sublist; [exact Hc | apply sorted_indices |].
    now rewrite (merge_sort_Permutation le n).
Qed.

Lemma nchoosek_NoDup (n : list nat) (k : nat) :
  NoDup n -> NoDup (nchoosekcombinations_ n k).
Proof.
  intros Hn. apply subsetsOf_NoDup.
  now rewrite (merge_sort_Permutation le n).
Qed.




End Combinations.

(** ** Decoy sequences *)

Section DecoySequences.

Variable g : PRNG.

Lemma shuffle_Permutation (l : list ascii) :
  forall r : Rng g, Permutation (fst (shuffle g l r)) l.
Proof.
  induction l as [|c rest IH]; intros r; simpl; [constructor|].
  specialize (IH r). destruct (shuffle g rest r) as [placed r1]. simpl in IH.
  destruct (draw g (S (length placed)) r1) as [j r2]. simpl.
  rewrite <- Permutation_middle, take_drop. now constructor.
Qed.

Lemma shuffleSequence_Permutation (sequence : string) (r : Rng g) :
  Permutation (list_ascii_of_string (fst (shuffleSequence g sequence r)))
              (list_ascii_of_string sequence).
Proof.
  unfold shuffleSequence.
  pose proof (shuffle_Permutation (list_ascii_of_string sequence) r) as H.
  destruct (shuffle g (list_ascii_of_string sequence) r) as [l r']. simpl in *.
  now rewrite list_ascii_of_string_of_list_ascii.
Qed.

(** Two different strings of one length differ at some position. *)
Lemma differ_at_some_residue (a : string) :
  forall b : string,
    String.length a = String.length b -> a <> b ->
    exists i : nat, (i < String.length b)%nat /\ String.get i a <> String.get i b.
Proof.
  induction a as [|x a IH]; intros [|y b] Hlen Hne; simpl in *; try discriminate.
  - congruence.
  - destruct (Ascii.ascii_dec x y) as [-> | Hxy].
    + destruct (IH b) as (i & Hi & Hget); [lia | congruence |].
      exists (S i). split; [lia | exact Hget].
    + exists O. split; [lia | congruence].
Qed.

Lemma length_list_ascii (a : string) :
  length (list_ascii_of_string a) = String.length a.
Proof. induction a; simpl; congruence. Qed.

Lemma shuffled_valid (target decoy : string) :
  Permutation (list_ascii_of_string decoy) (list_ascii_of_string target) ->
  decoy <> target -> decoyValid target decoy.
Proof.
  intros Hp Hne. split; [exact Hp|]. split; [exact Hne|].
  apply differ_at_some_residue; [|exact Hne].
  rewrite <- !length_list_ascii. now apply Permutation_length.
Qed.

(** When the re-shuffle loop hands out a decoy, it is a valid one. *)
Lemma decoyOf_valid (fuel : nat) (target : string) :
  forall (r r' : Rng g) (decoy : string),
    decoyOf g fuel target r = (Some decoy, r') -> decoyValid target decoy.
Proof.
  induction fuel as [|fuel IH]; intros r r' decoy; simpl; [discriminate|].
  pose proof (shuffleSequence_Permutation target r) as Hp.
  destruct (shuffleSequence g target r) as [d r1]. simpl in Hp.
  destruct (String.eqb d target) eqn:Heq.
  - apply IH.
  - intros [= <- <-]. apply shuffled_valid; [exact Hp|].
    now apply String.eqb_neq.
Qed.

(** The loop ends in the round whose shuffle is not the target. *)
Lemma decoyOf_first_round (fuel : nat) (target : string) (r : Rng g) :
  String.eqb (fst (shuffleSequence g target r)) target = false ->
  decoyOf g (S fuel) target r =
    (Some (fst (shuffleSequence g target r)), snd (shuffleSequence g target r)).
Proof.
  intros H. simpl. destruct (shuffleSequence g target r) as [d r1].
  simpl in H. now rewrite H.
Qed.

(** More fuel does not change a decoy that was found. *)
Lemma decoyOf_more_fuel (fuel : nat) (target : string) :
  forall (r r' : Rng g) (decoy : string),
    decoyOf g fuel target r = (Some decoy, r') ->
    decoyOf g (S fuel) target r = (Some decoy, r').
Proof.
  induction fuel as [|fuel IH]; intros r r' decoy; [discriminate|].
  intros H. change (decoyOf g (S (S fuel)) target r) with
    (let '(d, r1) := shuffleSequence g target r in
     if String.eqb d target then decoyOf g (S fuel) target r1 else (Some d, r1)).
  simpl in H. destruct (shuffleSequence g target r) as [d r1].
  destruct (String.eqb d target); [now apply IH | exact H].
Qed.

Lemma decoyOf_fuel_mono (fuel fuel' : nat) (target : string) (r r' : Rng g)
      (decoy : string) :
  (fuel <= fuel')%nat ->
  decoyOf g fuel target r = (Some decoy, r') ->
  decoyOf g fuel' target r = (Some decoy, r').
Proof.
  induction 1 as [|fuel' Hle IH]; intros H; [exact H|].
  apply decoyOf_more_fuel. now apply IH.
Qed.

(** A sequence of one repeated residue has no other shuffle: the loop never
    hands out a decoy for it. *)
Lemma decoyOf_uniform (fuel : nat) (target : string) (c : ascii) :
  list_ascii_of_string target = replicate (String.length target) c ->
  forall r : Rng g, fst (decoyOf g fuel target r) = None.
Proof.
  intros Hu. induction fuel as [|fuel IH]; intros r; simpl; [reflexivity|].
  pose proof (shuffleSequence_Permutation target r) as Hp.
  destruct (shuffleSequence g target r) as [d r1]. simpl in Hp.
  rewrite Hu in Hp. symmetry in Hp. apply replicate_Permutation in Hp.
  rewrite <- Hu in Hp.
  assert (d = target) as ->.
  { rewrite <- (string_of_list_ascii_of_string d),
            <- (string_of_list_ascii_of_string target). now f_equal. }
  rewrite String.eqb_refl. apply IH.
Qed.

(** The fill loop keeps the map valid, keeps the entries it found, and
    leaves every target with a decoy. *)
Lemma fillDecoys_valid (fuel : nat) (targets : list string) :
  forall (m m' : gmap string string) (r r' : Rng g),
    decoysValid m ->
    fillDecoys g fuel targets m r = (Some m', r') ->
    decoysValid m' /\
    (forall target, In target targets -> is_Some (m' !! target)) /\
    (forall target decoy, m !! target = Some decoy -> m' !! target = Some decoy).
Proof.
  induction targets as [|t rest IH]; intros m m' r r' Hm; simpl.
  - intros [= <- <-]. split; [exact Hm|]. split; [intros ? []|auto].
  - destruct (m !! t) as [d|] eqn:Hmt.
    + intros H. destruct (IH _ _ _ _ Hm H) as (Hv & Hall & Hkeep).
      split; [exact Hv|]. split; [|exact Hkeep].
      intros target [<- | Hin]; [|now apply Hall].
      exists d. now apply Hkeep.
    + destruct (decoyOf g fuel t r) as [[d|] r1] eqn:Hd; [|discriminate].
      intros H.
      assert (Hm1 : decoysValid (<[t := d]> m)).
      { intros target decoy Hl. destruct (decide (t = target)) as [<- | Hne].
        - rewrite lookup_insert_eq in Hl. injection Hl as <-.
          eapply decoyOf_valid; eauto.
        - rewrite lookup_insert_ne in Hl by exact Hne. now apply Hm. }
      destruct (IH _ _ _ _ Hm1 H) as (Hv & Hall & Hkeep).
      split; [exact Hv|]. split.
      * intros target [<- | Hin]; [|now apply Hall].
        exists d. apply Hkeep. apply lookup_insert_eq.
      * intros target decoy Hl. apply Hkeep.
        rewrite lookup_insert_ne; [exact Hl | congruence].
Qed.

Lemma In_targetSequences (TargetSequenceMap : gmap nat (gmap string (gset string)))
      (swath : nat) (sequences : gmap string (gset string)) (target : string) :
  TargetSequenceMap !! swath = Some sequences ->
  is_Some (sequences !! target) ->
  In target (targetSequences TargetSequenceMap).
Proof.
  intros Hs [forms Hf]. unfold targetSequences.
  apply in_flat_map. exists (swath, sequences). split.
  - apply list_elem_of_In, elem_of_map_to_list. exact Hs.
  - simpl. apply in_map_iff. exists (target, forms). split; [reflexivity|].
    apply list_elem_of_In, elem_of_map_to_list. exact Hf.
Qed.

End DecoySequences.

Section DecoyRounds.

Variable g : PRNG.

(** The loop ends in the first round whose shuffle is not the target. *)
Lemma decoyOf_stops (fuel : nat) (target : string) :
  forall (r : Rng g) (n : nat),
    (n < fuel)%nat ->
    (forall m, (m < n)%nat -> roundShuffle g m target r = target) ->
    roundShuffle g n target r <> target ->
    decoyOf g fuel target r =
      (Some (roundShuffle g n target r),
       snd (shuffleSequence g target (afterRounds g n target r))).
Proof.
  induction fuel as [|fuel IH]; intros r n Hn Hbefore Hdiff; [lia|].
  simpl. destruct n as [|n].
  - unfold roundShuffle in *. simpl in *.
    destruct (shuffleSequence g target r) as [d r1]. simpl in *.
    apply String.eqb_neq in Hdiff. now rewrite Hdiff.
  - pose proof (Hbefore O ltac:(lia)) as H0. unfold roundShuffle in H0. simpl in H0.
    destruct (shuffleSequence g target r) as [d r1] eqn:Hs. simpl in H0. subst d.
    rewrite String.eqb_refl.
    assert (Hshift : forall m, roundShuffle g (S m) target r = roundShuffle g m target r1).
    { intros m. unfold roundShuffle. simpl. now rewrite Hs. }
    rewrite Hshift in Hdiff.
    rewrite (IH r1 n); [| lia | | exact Hdiff].
    + unfold roundShuffle. simpl. now rewrite Hs.
    + intros m Hm. rewrite <- Hshift. apply Hbefore. lia.
Qed.

(** The loop gives up only when every round within the fuel gave the
    target back. *)
Lemma decoyOf_None (fuel : nat) (target : string) :
  forall r : Rng g,
    fst (decoyOf g fuel target r) = None ->
    forall n, (n < fuel)%nat -> roundShuffle g n target r = target.
Proof.
  induction fuel as [|fuel IH]; intros r Hnone n Hn; [lia|].
  simpl in Hnone. destruct (shuffleSequence g target r) as [d r1] eqn:Hs.
  destruct (String.eqb d target) eqn:Heq; [|discriminate].
  apply String.eqb_eq in Heq. subst d.
  destruct n as [|n].
  - unfold roundShuffle. simpl. now rewrite Hs.
  - unfold roundShuffle. simpl. rewrite Hs. simpl.
    apply (IH r1 Hnone). lia.
Qed.

Lemma fillDecoys_None (fuel : nat) (targets : list string) :
  forall (m : gmap string string) (r : Rng g),
    fst (fillDecoys g fuel targets m r) = None ->
    exists (target : string) (r0 : Rng g),
      In target targets /\
      forall n, (n < fuel)%nat -> roundShuffle g n target r0 = target.
Proof.
  induction targets as [|t rest IH]; intros m r; simpl; [discriminate|].
  destruct (m !! t).
  - intros H. destruct (IH _ _ H) as (target & r0 & Hin & Hall).
    exists target, r0. split; [now right | exact Hall].
  - destruct (decoyOf g fuel t r) as [[d|] r1] eqn:Hd.
    + intros H. destruct (IH _ _ H) as (target & r0 & Hin & Hall).
      exists target, r0. split; [now right | exact Hall].
    + intros _. exists t, r. split; [now left|].
      apply decoyOf_None. now rewrite Hd.
Qed.

(** A list of residues is one residue repeated, or holds two different
    ones. *)
Lemma uniform_or_two (l : list ascii) :
  (exists c, l = replicate (length l) c) \/
  (exists a b, a <> b /\ In a l /\ In b l).
Proof.
  induction l as [|x l IH]; [left; now exists "a"%char|].
  destruct IH as [[c Hc] | (a & b & Hab & Ha & Hb)].
  - destruct l as [|y l]; [left; now exists x|].
    simpl in Hc. injection Hc as -> Hc.
    destruct (Ascii.ascii_dec x c) as [-> | Hne].
    + left. exists c. simpl. now rewrite <- Hc.
    + right. exists x, c. split; [exact Hne|]. split; [now left | right; now left].
  - right. exists a, b. split; [exact Hab|]. split; now right.
Qed.

(** A round can differ from the target only when the target holds two
    different residues. *)
Lemma roundShuffle_differs (n : nat) (target : string) (r : Rng g) :
  roundShuffle g n target r <> target ->
  exists a b, a <> b /\
              In a (list_ascii_of_string target) /\ In b (list_ascii_of_string target).
Proof.
  intros Hdiff.
  destruct (uniform_or_two (list_ascii_of_string target)) as [[c Hc] | H]; [|exact H].
  exfalso. apply Hdiff. unfold roundShuffle.
  pose proof (shuffleSequence_Permutation g target (afterRounds g n target r)) as Hp.
  destruct (shuffleSequence g target (afterRounds g n target r)) as [d r1]. simpl in *.
  rewrite Hc in Hp. symmetry in Hp. apply replicate_Permutation in Hp.
  rewrite <- Hc in Hp.
  rewrite <- (string_of_list_ascii_of_string d),
          <- (string_of_list_ascii_of_string target). now f_equal.
Qed.

End DecoyRounds.




(** ** Modification placement on decoys *)

Section DecoyPlacement.

Variable modifiableSites : string -> string -> list nat.

(** The loop fails on the first modification the decoy cannot host, whatever
    was placed before. *)
Lemma placeOnDecoy_insufficient (target decoy : string) (observed : list (string * nat)) :
  forall (sequences : list AASequence) (modification : string) (k : nat),
    In (modification, k) observed ->
    (length (modifiableSites decoy modification) < k)%nat ->
    exists modification' k',
      In (modification', k') observed /\
      (length (modifiableSites decoy modification') < k')%nat /\
      placeOnDecoy modifiableSites target decoy observed sequences =
        inl (InsufficientSites modification' k' (length (modifiableSites decoy modification'))).
Proof.
  induction observed as [|[m1 k1] rest IH]; intros sequences modification k Hin Hlt;
    [destruct Hin|].
  simpl. destruct (Nat.ltb_spec (length (modifiableSites decoy m1)) k1) as [Hfail | Hok].
  - exists m1, k1. split; [now left|]. split; [exact Hfail | reflexivity].
  - destruct Hin as [Heq | Hin].
    + injection Heq as -> ->. lia.
    + destruct (IH (addModificationsSequences_ sequences
                      (nchoosekcombinations_ (modifiableSites target m1) k1) m1)
                   modification k Hin Hlt) as (m' & k' & Hin' & Hlt' & Hres).
      exists m', k'. split; [now right|]. split; [exact Hlt' | exact Hres].
Qed.

(** When the loop goes through, the decoy hosts every modification and no
    placement was dropped: each modification multiplies the number of
    variants by its number of position-combinations. *)
Lemma placeOnDecoy_complete (target decoy : string) (observed : list (string * nat)) :
  forall sequences forms : list AASequence,
    placeOnDecoy modifiableSites target decoy observed sequences = inr forms ->
    Forall (fun mk => (snd mk <= length (modifiableSites decoy (fst mk)))%nat) observed /\
    length forms =
      fold_left (fun n mk => (n * binom (length (modifiableSites target (fst mk))) (snd mk))%nat)
                observed (length sequences).
Proof.
  induction observed as [|[m1 k1] rest IH]; intros sequences forms; simpl.
  - intros [= <-]. split; [constructor | reflexivity].
  - destruct (Nat.ltb_spec (length (modifiableSites decoy m1)) k1) as [Hfail | Hok];
      [discriminate|].
    intros H. destruct (IH _ _ H) as [Hall Hlen]. split.
    + constructor; [exact Hok | exact Hall].
    + rewrite Hlen. f_equal. unfold addModificationsSequences_.
      clear. induction sequences as [|s sequences IHs]; simpl; [reflexivity|].
      rewrite length_app, length_map, IHs, nchoosek_count. lia.
Qed.

Lemma decoyPeptidoforms_app (before after : list (string * (AASequence * AASequence))) :
  decoyPeptidoforms modifiableSites (before ++ after) =
    (fst (decoyPeptidoforms modifiableSites before) ++
       fst (decoyPeptidoforms modifiableSites after),
     snd (decoyPeptidoforms modifiableSites before) ++
       snd (decoyPeptidoforms modifiableSites after)).
Proof.
  induction before as [|[id [sequence decoy]] before IH]; simpl.
  - now destruct (decoyPeptidoforms modifiableSites after).
  - rewrite IH.
    destruct (decoyPeptidoforms modifiableSites before) as [done skipped].
    now destruct (combineDecoyModifications_ modifiableSites sequence decoy).
Qed.

(** C7: when the decoy has fewer modifiable sites than the number of
    occurrences of a modification observed on the target,
    [combineDecoyModifications_] fails with the insufficient-sites error (it
    returns no set of placements, truncated or not); the error is that
    peptide's alone: the peptide is left out of the result and reported,
    and the peptides before and after it are processed as they are without
    it. *)
Theorem combineDecoyModifications_insufficient_sites
        (sequence decoy_sequence : AASequence) (modification : string) (k : nat)
        (id : string) (before after : list (string * (AASequence * AASequence))) :
  In (modification, k) (observedModifications sequence) ->
  (length (modifiableSites (residues decoy_sequence) modification) < k)%nat ->
  exists e : PlacementError,
    combineDecoyModifications_ modifiableSites sequence decoy_sequence = inl e /\
    (exists modification' k',
        e = InsufficientSites modification' k'
              (length (modifiableSites (residues decoy_sequence) modification')) /\
        In (modification', k') (observedModifications sequence) /\
        (length (modifiableSites (residues decoy_sequence) modification') < k')%nat) /\
    fst (decoyPeptidoforms modifiableSites
           (before ++ (id, (sequence, decoy_sequence)) :: after)) =
      fst (decoyPeptidoforms modifiableSites (before ++ after)) /\
    snd (decoyPeptidoforms modifiableSites
           (before ++ (id, (sequence, decoy_sequence)) :: after)) =
      snd (decoyPeptidoforms modifiableSites before) ++
      (id, e) :: snd (decoyPeptidoforms modifiableSites after).
Proof.
  intros Hin Hlt.
  destruct (placeOnDecoy_insufficient (residues sequence) (residues decoy_sequence)
              (observedModifications sequence) [toUnmodified decoy_sequence]
              modification k Hin Hlt) as (m' & k' & Hin' & Hlt' & Hres).
  fold (combineDecoyModifications_ modifiableSites sequence decoy_sequence) in Hres.
  eexists. split; [exact Hres|]. split; [exists m', k'; auto|].
  rewrite !decoyPeptidoforms_app. simpl.
  destruct (decoyPeptidoforms modifiableSites after) as [done skipped].
  rewrite Hres. simpl. split; reflexivity.
Qed.

End DecoyPlacement.

(** The example of the header: the placements of target SAS(Phospho)K carried
    over to the decoy SSSK are S(Phospho)SSK and SSS(Phospho)K. *)
Example combineDecoyModifications_header_example :
  combineDecoyModifications_ exampleSites
    (mkAASequence "SASK" {[ 2%nat := "Phospho"%string ]}) (mkAASequence "SSSK" ∅)
  = inr [mkAASequence "SSSK" {[ 0%nat := "Phospho"%string ]};
         mkAASequence "SSSK" {[ 2%nat := "Phospho"%string ]}].
Proof. vm_compute. reflexivity. Qed.

Lemma combineDecoyModifications_insufficient_sites_witness :
  combineDecoyModifications_ exampleSites
    (mkAASequence "SASK" {[ 2%nat := "Phospho"%string ]}) (mkAASequence "AKAA" ∅)
  = inl (InsufficientSites "Phospho" 1 0).
Proof.
  assert (Hin : In ("Phospho"%string, 1%nat)
                   (observedModifications (mkAASequence "SASK" {[ 2%nat := "Phospho"%string ]}))).
  { vm_compute. left. reflexivity. }
  assert (Hlt : (length (exampleSites (residues (mkAASequence "AKAA" ∅)) "Phospho") < 1)%nat).
  { vm_compute. lia. }
  destruct (combineDecoyModifications_insufficient_sites exampleSites
              (mkAASequence "SASK" {[ 2%nat := "Phospho"%string ]}) (mkAASequence "AKAA" ∅)
              "Phospho" 1 "peptide1" [] [] Hin Hlt) as (e & He & _).
  rewrite He. vm_compute in He. injection He as <-. reflexivity.
Defined.

(** ** The defaults of [uisTransitions] *)

Section UisDefaults.

Variable TargetedExperiment : Type.
Variable uisTransitionsBody :
  TargetedExperiment -> UisRequired -> UisOptions -> TargetedExperiment.

(** C8: the defaults of [uisTransitions] are round_decPow = -4,
    max_num_alternative_localizations = 20, shuffle_seed = -1 (the seed is
    then taken from the clock) and disable_decoy_transitions = false: a
    call that leaves trailing arguments out is the call that writes these
    values. *)
Theorem uisTransitions_defaults (exp : TargetedExperiment) (required : UisRequired) :
  completeArguments Given0 = mkUisOptions (-4) 20 (-1) false /\
  uisTransitions TargetedExperiment uisTransitionsBody exp required Given0 =
    uisTransitions TargetedExperiment uisTransitionsBody exp required
                   (Given4 (-4) 20 (-1) false) /\
  (forall r,
      uisTransitions TargetedExperiment uisTransitionsBody exp required (Given1 r) =
      uisTransitions TargetedExperiment uisTransitionsBody exp required
                     (Given4 r 20 (-1) false)) /\
  (forall r m,
      uisTransitions TargetedExperiment uisTransitionsBody exp required (Given2 r m) =
      uisTransitions TargetedExperiment uisTransitionsBody exp required
                     (Given4 r m (-1) false)) /\
  (forall r m s,
      uisTransitions TargetedExperiment uisTransitionsBody exp required (Given3 r m s) =
      uisTransitions TargetedExperiment uisTransitionsBody exp required
                     (Given4 r m s false)) /\
  (forall clock : Z, selectSeed clock (shuffle_seed (completeArguments Given0)) = clock).
Proof.
  repeat split; reflexivity.
Qed.

End UisDefaults.

(** ** The hooks of [BaseLabeler] *)

Section LabelingHooks.

Import BaseLabeler.

Variables FeatureMapSimVector MSSimExperiment Param : Type.

Lemma allHooks_complete (h : Hook) : In h allHooks.
Proof. destruct h; simpl; tauto. Qed.

(** C3: what each hook does when a labeler that does not override it is
    asked to run it.  The six hooks after [setUpHook] throw
    [Exception::NotImplemented], as the claim says; [setUpHook] itself,
    whose body is empty, returns and leaves the features as they are, where
    the claim has it fail. *)
Theorem hooks_throw_except_setUpHook (h : Hook) (features : FeatureMapSimVector)
        (simulated_map : MSSimExperiment) :
  invoke FeatureMapSimVector MSSimExperiment h features simulated_map =
    match h with
    | SetUpHook => Returns (features, simulated_map)
    | _ => Throws (ThrownObject NotImplemented)
    end.
Proof.
  destruct h; reflexivity.
Qed.

(** C10: [preCheck] always throws, and what it throws is a pointer to a
    [NotImplemented]; the hooks that throw, [postDigestHook] among them,
    throw the object.  A handler for [NotImplemented] (by value or by
    reference) takes the hooks' exception and lets [preCheck]'s through;
    the exception the documentation of [preCheck] announces is
    [InvalidParameter]. *)
Theorem preCheck_throws_pointer (isBaseOf : ExceptionClass -> ExceptionClass -> bool)
        (param : Param) (features : FeatureMapSimVector) (simulated_map : MSSimExperiment) :
  preCheck Param param = Throws (ThrownPointer NotImplemented) /\
  postDigestHook FeatureMapSimVector features = Throws (ThrownObject NotImplemented) /\
  (forall h t,
      invoke FeatureMapSimVector MSSimExperiment h features simulated_map = Throws t ->
      t = ThrownObject NotImplemented) /\
  (forall recover,
      tryCatch isBaseOf (postDigestHook FeatureMapSimVector features)
               (CatchObject NotImplemented) recover =
      recover (ThrownObject NotImplemented)) /\
  (forall (c : ExceptionClass) recover,
      tryCatch isBaseOf (preCheck Param param) (CatchObject c) recover =
      Throws (ThrownPointer NotImplemented)) /\
  catches isBaseOf (CatchObject NotImplemented) (ThrownObject NotImplemented) = true /\
  catches isBaseOf (CatchObject NotImplemented) (ThrownPointer NotImplemented) = false /\
  catches isBaseOf (CatchPointer NotImplemented) (ThrownPointer NotImplemented) = true /\
  preCheck_documented_throws = InvalidParameter /\
  preCheck Param param <> Throws (ThrownObject preCheck_documented_throws).
Proof.
  split; [reflexivity|]. split; [reflexivity|]. split.
  { intros h t. destruct h; cbn; [discriminate | intros [= <-]; reflexivity ..]. }
  repeat split; try reflexivity. discriminate.
Qed.

End LabelingHooks.

(** [setUpHook] run on a labeler that does not override it: it returns and
    throws nothing. *)
Lemma setUpHook_returns_silently :
  BaseLabeler.setUpHook (list nat) [1; 2]%nat = BaseLabeler.Returns [1; 2]%nat /\
  ~ (exists t,
        BaseLabeler.invoke (list nat) unit BaseLabeler.SetUpHook [1; 2]%nat tt =
        BaseLabeler.Throws t).
Proof.
  split; [reflexivity|]. intros [t Ht]. discriminate Ht.
Qed.

(** ** [JavaInfo::canRun] *)

Section JavaCheck.

Import JavaInfo.

Ltac run_canRun :=
  unfold canRun, checkRun, reportNotFound, startAndWait, when, LOG_ERROR,
    getStaticPath, assignStaticPath, mbind, M_bind, mret, M_ret;
  cbn.

(** The ways through the function. *)
Lemma canRun_quiet (env : Env) (java_executable : string) (st : State) :
  canRun env java_executable false st =
    (Returned (QProcess_waitForFinished env java_executable),
     mkState (log_error st) (static_path st) (started st ++ [java_executable])).
Proof.
  run_canRun.
  destruct (File_find env java_executable),
           (QProcess_waitForFinished env java_executable); reflexivity.
Qed.

Lemma canRun_found_verbose (env : Env) (java_executable : string) (st : State) :
  File_find env java_executable = true ->
  canRun env java_executable true st =
    (Returned (QProcess_waitForFinished env java_executable),
     mkState (if QProcess_waitForFinished env java_executable
              then log_error st
              else log_error st ++ [FoundButCannotExecute java_executable])
             (static_path st) (started st ++ [java_executable])).
Proof.
  intros Hf. unfold canRun. rewrite Hf. run_canRun.
  destruct (QProcess_waitForFinished env java_executable); reflexivity.
Qed.

Lemma canRun_missing_verbose (env : Env) (java_executable : string) (st : State) :
  File_find env java_executable = false ->
  canRun env java_executable true st =
    if QDir_isRelativePath env java_executable
    then
      if String.eqb (static_path st) EmptyString
      then
        match getenv_PATH env with
        | Some path =>
            (Returned false,
             mkState (log_error st ++
                        [JavaNotFound java_executable; AddJavaToPath path (apple env)])
                     path (started st))
        | None =>
            (ThrewNullString,
             mkState (log_error st ++ [JavaNotFound java_executable])
                     (static_path st) (started st))
        end
      else
        (Returned false,
         mkState (log_error st ++
                    [JavaNotFound java_executable;
                     AddJavaToPath (static_path st) (apple env)])
                 (static_path st) (started st))
    else
      (Returned false,
       mkState (log_error st ++ [JavaNotFound java_executable; CheckAbsolutePath])
               (static_path st) (started st)).
Proof.
  intros Hf. unfold canRun. rewrite Hf. run_canRun.
  destruct (QDir_isRelativePath env java_executable); run_canRun.
  - destruct (String.eqb (static_path st) EmptyString); cbn.
    + destruct (getenv_PATH env); cbn; [now rewrite <- app_assoc | reflexivity].
    + now rewrite <- app_assoc.
  - now rewrite <- app_assoc.
Qed.

Lemma snoc_neq (l : list string) (x : string) : l ++ [x] <> l.
Proof.
  intros H. apply (f_equal length) in H. rewrite length_app in H. cbn in H. lia.
Qed.

(** C9: when [File::find] does not find the executable, [verbose_on_error]
    changes the result and not the logging alone.  With
    [verbose_on_error = false] the exception is swallowed, the process is
    started all the same and the answer is whether it finished, nothing
    logged.  With [verbose_on_error = true] the function logs that Java was
    not found and starts no process: it returns [false] at once (or, when
    the path is relative, the static empty and PATH not set, leaves by the
    exception of the null PATH); an answer [false] without a process
    started comes from the verbose call only. *)
Theorem canRun_verbose_changes_result (env : Env) (java_executable : string) (st : State) :
  File_find env java_executable = false ->
  canRun env java_executable false st =
    (Returned (QProcess_waitForFinished env java_executable),
     mkState (log_error st) (static_path st) (started st ++ [java_executable])) /\
  started (snd (canRun env java_executable true st)) = started st /\
  (exists msgs, log_error (snd (canRun env java_executable true st)) =
                  log_error st ++ JavaNotFound java_executable :: msgs) /\
  fst (canRun env java_executable true st) =
    (if QDir_isRelativePath env java_executable &&
        String.eqb (static_path st) EmptyString &&
        bool_decide (getenv_PATH env = None)
     then ThrewNullString else Returned false) /\
  (forall verbose_on_error,
      fst (canRun env java_executable verbose_on_error st) = Returned false ->
      started (snd (canRun env java_executable verbose_on_error st)) = started st ->
      verbose_on_error = true) /\
  (QProcess_waitForFinished env java_executable = true ->
   fst (canRun env java_executable true st) <> fst (canRun env java_executable false st)).
Proof.
  intros Hf. rewrite canRun_quiet, (canRun_missing_verbose _ _ _ Hf).
  split; [reflexivity|].
  assert (Hloud :
    started (snd (canRun env java_executable true st)) = started st /\
    (exists msgs, log_error (snd (canRun env java_executable true st)) =
                    log_error st ++ JavaNotFound java_executable :: msgs) /\
    fst (canRun env java_executable true st) =
      (if QDir_isRelativePath env java_executable &&
          String.eqb (static_path st) EmptyString &&
          bool_decide (getenv_PATH env = None)
       then ThrewNullString else Returned false)).
  { rewrite (canRun_missing_verbose _ _ _ Hf).
    destruct (QDir_isRelativePath env java_executable); cbn;
      [|split; [reflexivity | split; [eexists; reflexivity | reflexivity]]].
    destruct (String.eqb (static_path st) EmptyString); cbn;
      [|split; [reflexivity | split; [eexists; reflexivity | reflexivity]]].
    destruct (getenv_PATH env); cbn;
      split; try reflexivity; split; try reflexivity; eexists; reflexivity. }
  rewrite (canRun_missing_verbose _ _ _ Hf) in Hloud.
  destruct Hloud as (Hs & Hl & Hr).
  split; [exact Hs|]. split; [exact Hl|]. split; [exact Hr|]. split.
  - intros [|]; [reflexivity|]. rewrite canRun_quiet. cbn.
    intros _ H. now apply snoc_neq in H.
  - intros Hw. rewrite Hr, Hw.
    destruct (QDir_isRelativePath env java_executable &&
              String.eqb (static_path st) EmptyString &&
              bool_decide (getenv_PATH env = None)); cbn; discriminate.
Qed.

Lemma canRun_verbose_changes_result_witness :
  fst (canRun missingButRunnable "java" true initial) = Returned false /\
  fst (canRun missingButRunnable "java" false initial) = Returned true /\
  fst (canRun missingNoPATH "java" true initial) = ThrewNullString.
Proof.
  assert (Hf : File_find missingButRunnable "java" = false) by reflexivity.
  assert (Hn : File_find missingNoPATH "java" = false) by reflexivity.
  destruct (canRun_verbose_changes_result missingButRunnable "java" initial Hf)
    as (Hfalse & _ & _ & Htrue & _).
  destruct (canRun_verbose_changes_result missingNoPATH "java" initial Hn)
    as (_ & _ & _ & Hthrew & _).
  split; [exact Htrue|]. split; [now rewrite Hfalse | exact Hthrew].
Defined.

(** X1: with [verbose_on_error = false] the answer of [File::find] plays no
    part: two environments in which the process gives the same answer give
    the same result and the same state, whatever [File::find],
    [QDir::isRelativePath] and PATH are; and nothing is logged. *)
Theorem canRun_quiet_ignores_find (env1 env2 : Env) (java_executable : string)
        (st : State) :
  QProcess_waitForFinished env1 java_executable =
    QProcess_waitForFinished env2 java_executable ->
  canRun env1 java_executable false st = canRun env2 java_executable false st /\
  log_error (snd (canRun env1 java_executable false st)) = log_error st /\
  static_path (snd (canRun env1 java_executable false st)) = static_path st.
Proof.
  intros Hw. rewrite !canRun_quiet, Hw. repeat split.
Qed.

Lemma canRun_quiet_ignores_find_witness :
  canRun missingButRunnable "java" false initial =
  canRun (mkEnv (fun _ => true) (fun _ => true) (fun _ => false) None true)
         "java" false initial.
Proof.
  apply (canRun_quiet_ignores_find missingButRunnable
           (mkEnv (fun _ => true) (fun _ => true) (fun _ => false) None true)
           "java" initial).
  reflexivity.
Defined.

(** X2: when [File::find] finds the executable, the call returns the answer
    of [waitForFinished], starts the process once and leaves the static
    path alone, with either value of [verbose_on_error]; the flag changes
    the log only: the verbose call adds one message, found but cannot be
    executed, when the process did not finish, and the log is untouched
    otherwise. *)
Theorem canRun_found_flag_logs_only (env : Env) (java_executable : string)
        (verbose_on_error : bool) (st : State) :
  File_find env java_executable = true ->
  canRun env java_executable verbose_on_error st =
    (Returned (QProcess_waitForFinished env java_executable),
     mkState (if verbose_on_error && negb (QProcess_waitForFinished env java_executable)
              then log_error st ++ [FoundButCannotExecute java_executable]
              else log_error st)
             (static_path st) (started st ++ [java_executable])).
Proof.
  intros Hf. destruct verbose_on_error.
  - rewrite (canRun_found_verbose _ _ _ Hf).
    now destruct (QProcess_waitForFinished env java_executable).
  - now rewrite canRun_quiet.
Qed.

Lemma canRun_found_flag_logs_only_witness :
  canRun (mkEnv (fun _ => true) (fun _ => false) (fun _ => true) None false)
         "java" true initial =
    (Returned false, mkState [FoundButCannotExecute "java"] EmptyString ["java"%string]).
Proof.
  apply (canRun_found_flag_logs_only
           (mkEnv (fun _ => true) (fun _ => false) (fun _ => true) None false)
           "java" true initial).
  reflexivity.
Defined.

(** X3: the answer [true] means the process was started and finished, and
    nothing was logged nor was the static path touched, with either value
    of [verbose_on_error]. *)
Theorem canRun_true_ran_and_finished (env : Env) (java_executable : string)
        (verbose_on_error : bool) (st : State) :
  fst (canRun env java_executable verbose_on_error st) = Returned true ->
  QProcess_waitForFinished env java_executable = true /\
  snd (canRun env java_executable verbose_on_error st) =
    mkState (log_error st) (static_path st) (started st ++ [java_executable]).
Proof.
  destruct verbose_on_error.
  - destruct (File_find env java_executable) eqn:Hf.
    + rewrite (canRun_found_verbose _ _ _ Hf). cbn. intros [= Hw]. now rewrite Hw.
    + rewrite (canRun_missing_verbose _ _ _ Hf).
      destruct (QDir_isRelativePath env java_executable),
               (String.eqb (static_path st) EmptyString),
               (getenv_PATH env); cbn; discriminate.
  - rewrite canRun_quiet. cbn. intros [= Hw]. now rewrite Hw.
Qed.

Lemma canRun_true_ran_and_finished_witness :
  started (snd (canRun missingButRunnable "java" false initial)) = ["java"%string].
Proof.
  assert (H : fst (canRun missingButRunnable "java" false initial) = Returned true)
    by reflexivity.
  destruct (canRun_true_ran_and_finished missingButRunnable "java" false initial H)
    as [_ Hst].
  rewrite Hst. reflexivity.
Defined.

(** X4: with [verbose_on_error = true] the answer [false] never comes
    without a message: the log grows, and its first new message is
    [JavaNotFound] when the file is missing and [FoundButCannotExecute] when
    it is there. *)
Theorem canRun_verbose_failure_logged (env : Env) (java_executable : string) (st : State) :
  fst (canRun env java_executable true st) = Returned false ->
  exists msgs,
    log_error (snd (canRun env java_executable true st)) =
      log_error st ++
      (if File_find env java_executable
       then FoundButCannotExecute java_executable
       else JavaNotFound java_executable) :: msgs.
Proof.
  destruct (File_find env java_executable) eqn:Hf.
  - rewrite (canRun_found_verbose _ _ _ Hf). cbn. intros [= ->]. now exists [].
  - rewrite (canRun_missing_verbose _ _ _ Hf). intros _.
    destruct (QDir_isRelativePath env java_executable),
             (String.eqb (static_path st) EmptyString),
             (getenv_PATH env); cbn; eexists; reflexivity.
Qed.

Lemma canRun_verbose_failure_logged_witness :
  exists msgs,
    log_error (snd (canRun missingButRunnable "java" true initial)) =
      JavaNotFound "java" :: msgs.
Proof.
  assert (H : fst (canRun missingButRunnable "java" true initial) = Returned false)
    by reflexivity.
  exact (canRun_verbose_failure_logged missingButRunnable "java" initial H).
Defined.

(** X5: [getenv("PATH")] is evaluated in one situation only: the file is
    missing, [verbose_on_error] is set, the path is relative and the
    function's static [path] is still empty.  There, a PATH that is set is
    copied into the static, and a PATH that is not set makes the call throw,
    the static staying empty; this is the only way the call throws.  In
    every other situation the static keeps its value, so once it is not
    empty no call changes it and no call throws. *)
Theorem canRun_static_path (env : Env) (java_executable : string)
        (verbose_on_error : bool) (st : State) :
  static_path (snd (canRun env java_executable verbose_on_error st)) =
    (if readsPATH env java_executable verbose_on_error st
     then default (static_path st) (getenv_PATH env)
     else static_path st) /\
  (fst (canRun env java_executable verbose_on_error st) = ThrewNullString <->
   readsPATH env java_executable verbose_on_error st = true /\ getenv_PATH env = None) /\
  (static_path st <> EmptyString ->
   static_path (snd (canRun env java_executable verbose_on_error st)) = static_path st /\
   fst (canRun env java_executable verbose_on_error st) <> ThrewNullString).
Proof.
  assert (H :
    static_path (snd (canRun env java_executable verbose_on_error st)) =
      (if readsPATH env java_executable verbose_on_error st
       then default (static_path st) (getenv_PATH env)
       else static_path st) /\
    (fst (canRun env java_executable verbose_on_error st) = ThrewNullString <->
     readsPATH env java_executable verbose_on_error st = true /\ getenv_PATH env = None)).
  { unfold readsPATH. destruct verbose_on_error.
    - destruct (File_find env java_executable) eqn:Hf.
      + rewrite (canRun_found_verbose _ _ _ Hf). cbn.
        split; [reflexivity|]. split; [discriminate | intros [? _]; discriminate].
      + rewrite (canRun_missing_verbose _ _ _ Hf). cbn.
        destruct (QDir_isRelativePath env java_executable); cbn;
          [|split; [reflexivity|]; split; [discriminate | intros [? _]; discriminate]].
        destruct (String.eqb (static_path st) EmptyString); cbn;
          [|split; [reflexivity|]; split; [discriminate | intros [? _]; discriminate]].
        destruct (getenv_PATH env); cbn.
        * split; [reflexivity|]. split; [discriminate | intros [_ ?]; discriminate].
        * split; [reflexivity|]. split; [intros _; split; reflexivity | reflexivity].
    - rewrite canRun_quiet. cbn. rewrite andb_false_r. cbn.
      split; [reflexivity|]. split; [discriminate | intros [? _]; discriminate]. }
  destruct H as [Hstatic Hthrow]. split; [exact Hstatic|]. split; [exact Hthrow|].
  intros Hne.
  assert (Hr : readsPATH env java_executable verbose_on_error st = false).
  { unfold readsPATH. apply String.eqb_neq in Hne. rewrite Hne. apply andb_false_r. }
  split.
  - now rewrite Hstatic, Hr.
  - intros Ht. apply Hthrow in Ht. destruct Ht as [Ht _]. congruence.
Qed.

(** X6: the PATH shown is the one of the first report.  After a verbose
    call that missed a relative executable and read a PATH that is not
    empty, a second such call, made when PATH has changed, still reports the
    first PATH. *)
Theorem canRun_reports_first_PATH (env1 env2 : Env) (java1 java2 : string)
        (path1 : string) (st : State) :
  File_find env1 java1 = false -> QDir_isRelativePath env1 java1 = true ->
  File_find env2 java2 = false -> QDir_isRelativePath env2 java2 = true ->
  static_path st = EmptyString ->
  getenv_PATH env1 = Some path1 -> path1 <> EmptyString ->
  log_error (snd (canRun env2 java2 true (snd (canRun env1 java1 true st)))) =
    log_error st ++
      [JavaNotFound java1; AddJavaToPath path1 (apple env1);
       JavaNotFound java2; AddJavaToPath path1 (apple env2)].
Proof.
  intros Hf1 Hr1 Hf2 Hr2 Hempty Hpath Hne.
  rewrite (canRun_missing_verbose env1 _ _ Hf1), Hr1, Hempty, Hpath.
  cbn [snd String.eqb].
  rewrite (canRun_missing_verbose env2 _ _ Hf2), Hr2. cbn [static_path].
  apply String.eqb_neq in Hne. rewrite Hne. cbn.
  now rewrite <- app_assoc.
Qed.

Lemma canRun_reports_first_PATH_witness :
  log_error
    (snd (canRun (mkEnv (fun _ => false) (fun _ => true) (fun _ => true)
                        (Some "/opt/jdk/bin"%string) false)
                 "java" true
                 (snd (canRun missingButRunnable "java" true initial)))) =
    [JavaNotFound "java"; AddJavaToPath "/usr/bin" false;
     JavaNotFound "java"; AddJavaToPath "/usr/bin" false].
Proof.
  apply (canRun_reports_first_PATH missingButRunnable
           (mkEnv (fun _ => false) (fun _ => true) (fun _ => true)
                  (Some "/opt/jdk/bin"%string) false)
           "java" "java" "/usr/bin" initial); try reflexivity.
  discriminate.
Defined.

(** X7: a call only adds to the log and to the processes started.  It
    appends at most two messages.  Either it starts the one process and
    returns the answer of [waitForFinished]; or, and only in a verbose call
    on a missing file, it starts none and then returns [false] or, with
    PATH not set, throws. *)
Theorem canRun_appends_only (env : Env) (java_executable : string)
        (verbose_on_error : bool) (st : State) :
  (exists msgs,
      log_error (snd (canRun env java_executable verbose_on_error st)) =
        log_error st ++ msgs /\ (length msgs <= 2)%nat) /\
  ((started (snd (canRun env java_executable verbose_on_error st)) =
      started st ++ [java_executable] /\
    fst (canRun env java_executable verbose_on_error st) =
      Returned (QProcess_waitForFinished env java_executable)) \/
   (started (snd (canRun env java_executable verbose_on_error st)) = started st /\
    verbose_on_error = true /\ File_find env java_executable = false /\
    (fst (canRun env java_executable verbose_on_error st) = Returned false \/
     fst (canRun env java_executable verbose_on_error st) = ThrewNullString))).
Proof.
  destruct verbose_on_error.
  - destruct (File_find env java_executable) eqn:Hf.
    + rewrite (canRun_found_verbose _ _ _ Hf). cbn. split; [|now left].
      destruct (QProcess_waitForFinished env java_executable).
      * exists []. rewrite app_nil_r. split; [reflexivity | cbn; lia].
      * eexists. split; [reflexivity | cbn; lia].
    + rewrite (canRun_missing_verbose _ _ _ Hf).
      destruct (QDir_isRelativePath env java_executable),
               (String.eqb (static_path st) EmptyString),
               (getenv_PATH env); cbn;
        (split;
         [eexists; split; [reflexivity | cbn; lia]
         | right; split; [reflexivity|]; split; [reflexivity|];
           split; [reflexivity|]; (now left) || (now right)]).
  - rewrite canRun_quiet. cbn. split; [|now left].
    exists []. rewrite app_nil_r. split; [reflexivity | cbn; lia].
Qed.

End JavaCheck.

(** ** Derived labelers *)

Section DerivedLabelers.

Import BaseLabeler Labeling.

Variables FeatureMapSimVector MSSimExperiment : Type.

Abbreviation Overrides := (Overrides FeatureMapSimVector MSSimExperiment).
Abbreviation call := (call FeatureMapSimVector MSSimExperiment).
Abbreviation runHooks := (runHooks FeatureMapSimVector MSSimExperiment).
Abbreviation needsOverride := (needsOverride FeatureMapSimVector MSSimExperiment).
Abbreviation overridden := (overridden FeatureMapSimVector MSSimExperiment).

(** A hook the class leaves to [BaseLabeler] ends as it does there. *)
Lemma call_inherited (derived : Overrides) (h : Hook)
      (features : FeatureMapSimVector) (simulated_map : MSSimExperiment) :
  overridden derived h = false ->
  call derived h features simulated_map =
    invoke FeatureMapSimVector MSSimExperiment h features simulated_map.
Proof.
  destruct derived as [o1 o2 o3 o4 o5 o6 o7].
  destruct h; cbn;
    [destruct o1 | destruct o2 | destruct o3 | destruct o4
     | destruct o5 | destruct o6 | destruct o7];
    cbn; (discriminate || reflexivity).
Qed.

Lemma call_needsOverride (derived : Overrides) (h : Hook)
      (features : FeatureMapSimVector) (simulated_map : MSSimExperiment) :
  needsOverride derived h = true ->
  call derived h features simulated_map = Throws (ThrownObject NotImplemented).
Proof.
  intros Hn.
  assert (Ho : overridden derived h = false).
  { destruct h; cbn in Hn; try discriminate; now apply negb_true_iff in Hn. }
  rewrite (call_inherited _ _ _ _ Ho).
  destruct h; cbn in Hn; try discriminate; reflexivity.
Qed.

Lemma call_setUpHook_inherited (derived : Overrides)
      (features : FeatureMapSimVector) (simulated_map : MSSimExperiment) :
  overridden derived SetUpHook = false ->
  call derived SetUpHook features simulated_map = Returns (features, simulated_map).
Proof.
  intros Ho. now rewrite (call_inherited _ _ _ _ Ho).
Qed.

(** X8: on a labeler that overrides nothing, a sequence of hook calls gets
    through only when it is made of [setUpHook] calls, and then the features
    and the simulated map are as they were; any other hook in the sequence
    ends it with [Exception::NotImplemented], thrown as an object. *)
Theorem runHooks_inheritsAll (hooks : list Hook)
        (features : FeatureMapSimVector) (simulated_map : MSSimExperiment) :
  runHooks (inheritsAll FeatureMapSimVector MSSimExperiment) hooks features simulated_map =
    if forallb (fun h => match h with SetUpHook => true | _ => false end) hooks
    then Returns (features, simulated_map)
    else Throws (ThrownObject NotImplemented).
Proof.
  induction hooks as [|h rest IH]; [reflexivity|].
  destruct h; cbn; try reflexivity. exact IH.
Qed.

(** X9: which hooks a derived labeler has to override.  When the bodies it
    overrides hooks with return, a sequence of hook calls throws exactly
    when it holds a hook other than [setUpHook] that the class does not
    override, and what is thrown then is [Exception::NotImplemented]; the
    inherited [setUpHook] never stops it. *)
Theorem runHooks_needs_overrides (derived : Overrides) (hooks : list Hook) :
  (forall h features simulated_map,
      overridden derived h = true ->
      exists r, call derived h features simulated_map = Returns r) ->
  forall (features : FeatureMapSimVector) (simulated_map : MSSimExperiment),
    (existsb (needsOverride derived) hooks = true ->
     runHooks derived hooks features simulated_map = Throws (ThrownObject NotImplemented)) /\
    (existsb (needsOverride derived) hooks = false ->
     exists r, runHooks derived hooks features simulated_map = Returns r).
Proof.
  intros Hret. induction hooks as [|h rest IH]; intros features simulated_map.
  - split; [discriminate | intros _; eexists; reflexivity].
  - cbn [existsb runHooks].
    destruct (needsOverride derived h) eqn:Hn.
    + split; [|discriminate]. intros _.
      now rewrite (call_needsOverride _ _ _ _ Hn).
    + assert (Hcall : exists r, call derived h features simulated_map = Returns r).
      { destruct (overridden derived h) eqn:Ho; [now apply Hret|].
        destruct h; cbn in Hn, Ho; rewrite ?Ho in Hn; try discriminate.
        exists (features, simulated_map).
        apply call_setUpHook_inherited. exact Ho. }
      destruct Hcall as [[features' simulated_map'] Hcall]. rewrite Hcall.
      cbn [orb]. apply IH.
Qed.

End DerivedLabelers.

Lemma runHooks_needs_overrides_witness :
  exists r,
    Labeling.runHooks (list nat) unit
      (Labeling.mkOverrides (list nat) unit None
         (Some (fun f => BaseLabeler.Returns (1%nat :: f)))
         (Some (fun f => BaseLabeler.Returns (2%nat :: f)))
         (Some (fun f => BaseLabeler.Returns (3%nat :: f)))
         (Some (fun f => BaseLabeler.Returns (4%nat :: f)))
         (Some (fun f => BaseLabeler.Returns (5%nat :: f)))
         (Some (fun f m => BaseLabeler.Returns (6%nat :: f, m))))
      BaseLabeler.allHooks [] tt = BaseLabeler.Returns r.
Proof.
  refine (proj2 (runHooks_needs_overrides (list nat) unit _ BaseLabeler.allHooks _ [] tt) _).
  - intros h features simulated_map _. destruct h; eexists; reflexivity.
  - reflexivity.
Defined.
